(** * GoMine: player sessions and the login handler

    A shallow embedding of [players.Player] (permissions, tracked chunks,
    movement sync) and of [handlers.LoginHandler.Handle], with the
    properties of the session protocol and of the visibility cull pass. *)

From stdpp Require Import gmap strings list fin_maps.

Local Open Scope Z_scope.

(** ** Go's [int32]: two's complement, wrap-around on overflow *)

Module Int32.

Definition min_int : Z := -2147483648.
Definition max_int : Z := 2147483647.

Definition in_range (z : Z) : Prop := min_int <= z <= max_int.

Definition in_rangeb (z : Z) : bool := (min_int <=? z) && (z <=? max_int).

(** The value of an [int32] expression whose exact result is [z]. *)
Definition wrap (z : Z) : Z := (z + 2147483648) mod 4294967296 - 2147483648.

Definition sub (a b : Z) : Z := wrap (a - b).
Definition add (a b : Z) : Z := wrap (a + b).
Definition mul (a b : Z) : Z := wrap (a * b).

(** [a >> n] on a signed operand is an arithmetic shift. *)
Definition shr (a n : Z) : Z := Z.shiftr a n.

End Int32.

(** ** Go's [float32]

    A finite value is [m * 2^e]; every finite [float32] has this form.
    Rounding is not needed to floor a value, so it is left to the
    operations of [Float32Ops]. *)

Inductive float32 : Type :=
| F32 (m e : Z)
| F32Inf (negative : bool)
| F32NaN.

(** [math.Floor(float64(x))]: exact on finite values, the value itself on
    infinities and NaN (which have no integer value). *)
Definition Floor (x : float32) : option Z :=
  match x with
  | F32 m e => Some (Z.shiftl m e)
  | F32Inf _ | F32NaN => None
  end.

(** What the language leaves to the platform: the sum of two [float32]
    (IEEE rounding), and the result of converting to [int32] a value that
    [int32] cannot represent. *)
Class Float32Ops : Type := {
  fadd32 : float32 → float32 → float32;
  int32_unrepresentable : float32 → Z
}.

(** [int32(math.Floor(float64(x)))]. *)
Definition int32_of_Floor `{Float32Ops} (x : float32) : Z :=
  match Floor x with
  | Some v => if Int32.in_rangeb v then v else Int32.wrap (int32_unrepresentable x)
  | None => Int32.wrap (int32_unrepresentable x)
  end.

(** Sums without rounding and the x86-64 conversion (the "integer
    indefinite" value); it agrees with the hardware wherever no rounding
    is needed, and serves to evaluate the model on concrete inputs. *)
Definition exact_fadd32 (a b : float32) : float32 :=
  match a, b with
  | F32 m1 e1, F32 m2 e2 =>
      let e := Z.min e1 e2 in
      F32 (m1 * 2 ^ (e1 - e) + m2 * 2 ^ (e2 - e)) e
  | F32NaN, _ | _, F32NaN => F32NaN
  | F32Inf s1, F32Inf s2 => if eqb s1 s2 then F32Inf s1 else F32NaN
  | F32Inf s, F32 _ _ | F32 _ _, F32Inf s => F32Inf s
  end.

Definition amd64_ops : Float32Ops :=
  {| fadd32 := exact_fadd32; int32_unrepresentable := λ _, Int32.min_int |}.

(** ** Package [players] *)

Module Players.

(** Modelled from the spec: the type [permissions.Permission], whose
    declaration is missing here. The session reads its name; the spec
    speaks of an override that "exists and is true". *)
Record Permission : Type := {
  GetName : string;
  GetValue : bool
}.

(** Modelled from the spec: the type [permissions.Group], missing here.
    The session consumes [Group.HasPermission(name) -> bool]. *)
Record Group : Type := {
  Group_HasPermission : string → bool
}.

(** An entity of a chunk, by its runtime id. *)
Record IEntity : Type := { RuntimeId : Z }.

(** [interfaces.IChunk], as far as the session reads it. *)
Record IChunk : Type := {
  GetX : Z;
  GetZ : Z;
  GetEntities : list IEntity
}.

Record TripleVector : Type := { X : float32; Y : float32; Z_ : float32 }.

Record Rotation : Type := { Pitch : float32; Yaw : float32; HeadYaw : float32 }.

(** [*entities.Human]: the part of the embedded entity that the session
    touches. *)
Record Human : Type := {
  Position : TripleVector;
  Rot : Rotation
}.

Record Player : Type := {
  human : option Human;   (* nil until PlaceInWorld *)
  playerName : string;
  displayName : string;
  spawned : bool;
  permissions : gmap string Permission;
  permissionGroup : Group;
  onGround : bool;
  viewDistance : Z;
  skinId : string;
  geometryName : string;
  geometryData : string;
  finalized : bool;
  usedChunks : gmap Z IChunk
}.

(** Calls on the collaborators of a session, in the order they are made. *)
Inductive Event : Type :=
| SendFullChunkData (chunk : IChunk) (receiver : string)
| RemoveViewer (chunk : IChunk) (viewer : string)
| DespawnFrom (entity : IEntity) (viewer : string).

Definition with_permissions (player : Player) (m : gmap string Permission) : Player :=
  {| human := human player; playerName := playerName player;
     displayName := displayName player; spawned := spawned player;
     permissions := m; permissionGroup := permissionGroup player;
     onGround := onGround player; viewDistance := viewDistance player;
     skinId := skinId player; geometryName := geometryName player;
     geometryData := geometryData player; finalized := finalized player;
     usedChunks := usedChunks player |}.

Definition with_usedChunks (player : Player) (m : gmap Z IChunk) : Player :=
  {| human := human player; playerName := playerName player;
     displayName := displayName player; spawned := spawned player;
     permissions := permissions player; permissionGroup := permissionGroup player;
     onGround := onGround player; viewDistance := viewDistance player;
     skinId := skinId player; geometryName := geometryName player;
     geometryData := geometryData player; finalized := finalized player;
     usedChunks := m |}.

Definition with_motion (player : Player) (h : Human) (g : bool) : Player :=
  {| human := Some h; playerName := playerName player;
     displayName := displayName player; spawned := spawned player;
     permissions := permissions player; permissionGroup := permissionGroup player;
     onGround := g; viewDistance := viewDistance player;
     skinId := skinId player; geometryName := geometryName player;
     geometryData := geometryData player; finalized := finalized player;
     usedChunks := usedChunks player |}.

(** [NewPlayer(server, name)]; the group is the server's default group. *)
Definition NewPlayer (defaultGroup : Group) (name : string) : Player :=
  {| human := None; playerName := name; displayName := name;
     spawned := false; permissions := ∅; permissionGroup := defaultGroup;
     onGround := false; viewDistance := 0;
     skinId := EmptyString; geometryName := EmptyString;
     geometryData := EmptyString;
     finalized := false; usedChunks := ∅ |}.

(** [PlaceInWorld]: the player gets a new [Human] at the given position
    and rotation. *)
Definition PlaceInWorld (player : Player) (position : TripleVector)
    (rotation : Rotation) : Player :=
  {| human := Some {| Position := position; Rot := rotation |};
     playerName := playerName player;
     displayName := displayName player; spawned := spawned player;
     permissions := permissions player; permissionGroup := permissionGroup player;
     onGround := onGround player; viewDistance := viewDistance player;
     skinId := skinId player; geometryName := geometryName player;
     geometryData := geometryData player; finalized := finalized player;
     usedChunks := usedChunks player |}.

Definition IsFinalized (player : Player) : bool := finalized player.

Definition SetFinalized (player : Player) : Player :=
  {| human := human player; playerName := playerName player;
     displayName := displayName player; spawned := spawned player;
     permissions := permissions player; permissionGroup := permissionGroup player;
     onGround := onGround player; viewDistance := viewDistance player;
     skinId := skinId player; geometryName := geometryName player;
     geometryData := geometryData player; finalized := true;
     usedChunks := usedChunks player |}.

Definition SetViewDistance (player : Player) (distance : Z) : Player :=
  {| human := human player; playerName := playerName player;
     displayName := displayName player; spawned := spawned player;
     permissions := permissions player; permissionGroup := permissionGroup player;
     onGround := onGround player; viewDistance := distance;
     skinId := skinId player; geometryName := geometryName player;
     geometryData := geometryData player; finalized := finalized player;
     usedChunks := usedChunks player |}.

Definition GetViewDistance (player : Player) : Z := viewDistance player.

Definition GetPermissionGroup (player : Player) : Group := permissionGroup player.

Definition SetPermissionGroup (player : Player) (group : Group) : Player :=
  {| human := human player; playerName := playerName player;
     displayName := displayName player; spawned := spawned player;
     permissions := permissions player; permissionGroup := group;
     onGround := onGround player; viewDistance := viewDistance player;
     skinId := skinId player; geometryName := geometryName player;
     geometryData := geometryData player; finalized := finalized player;
     usedChunks := usedChunks player |}.

(** *** Permissions *)

Definition HasPermission (player : Player) (permission : string) : bool :=
  if Group_HasPermission (GetPermissionGroup player) permission then true
  else bool_decide (is_Some (permissions player !! permission)).

Definition AddPermission (player : Player) (permission : Permission)
  : bool * Player :=
  let hasPermission := HasPermission player (GetName permission) in
  (hasPermission,
   with_permissions player (<[GetName permission := permission]> (permissions player))).

Definition RemovePermission (player : Player) (permission : string)
  : bool * Player :=
  if negb (HasPermission player permission) then (false, player)
  else (true, with_permissions player (delete permission (permissions player))).

(** *** Tracked chunks *)

(** [SendFullChunkData] goes to the client of this session; the chunk is
    then stored under its index, replacing what was there. *)
Definition SendChunk (player : Player) (chunk : IChunk) (index : Z)
  : Player * list Event :=
  (with_usedChunks player (<[index := chunk]> (usedChunks player)),
   [SendFullChunkData chunk (playerName player)]).

Definition HasChunkInUse (player : Player) (index : Z) : bool :=
  bool_decide (is_Some (usedChunks player !! index)).

Definition HasAnyChunkInUse (player : Player) : bool :=
  bool_decide (0 < size (usedChunks player))%nat.

(** Modelled from the spec: [SetPosition] of the embedded entity, missing
    here; step 1 of the movement sync "updates position". *)
Definition SetPosition (h : Human) (v : TripleVector) : Human :=
  {| Position := v; Rot := Rot h |}.

(** [xDist*xDist + zDist*zDist], all in [int32]. *)
Definition squaredDistance (chunkX chunkZ : Z) (chunk : IChunk) : Z :=
  let xDist := Int32.sub chunkX (GetX chunk) in
  let zDist := Int32.sub chunkZ (GetZ chunk) in
  Int32.add (Int32.mul xDist xDist) (Int32.mul zDist zDist).

Definition despawnAll (viewer : string) (chunk : IChunk) : list Event :=
  (λ entity, DespawnFrom entity viewer) <$> GetEntities chunk.

(** The body of the loop over [usedChunks], on one entry. *)
Definition cullEntry (viewer : string) (chunkX chunkZ rs : Z)
    (acc : gmap Z IChunk * list Event) (entry : Z * IChunk)
  : gmap Z IChunk * list Event :=
  let '(index, chunk) := entry in
  if rs <? squaredDistance chunkX chunkZ chunk then
    (delete index acc.1,
     acc.2 ++ RemoveViewer chunk viewer :: despawnAll viewer chunk)
  else acc.

Definition chunkCoordinate `{Float32Ops} (v : float32) : Z :=
  Int32.shr (int32_of_Floor v) 4.

(** [SyncMove]. A [range] over a Go map visits every entry once, in an
    order the language does not fix: [order] is the order of this run,
    some permutation of the entries of [usedChunks]. The result is
    [None] when the player has not been placed in a world (the embedded
    [Human] is nil and the first statements panic). *)
Definition SyncMove `{Float32Ops} (order : list (Z * IChunk)) (player : Player)
    (x y z pitch yaw headYaw : float32) (onGround : bool)
  : option (Player * list Event) :=
  match human player with
  | None => None
  | Some h =>
      let h1 := SetPosition h {| X := x; Y := y; Z_ := z |} in
      let h2 := {| Position := Position h1;
                   Rot := {| Pitch := fadd32 (Pitch (Rot h1)) pitch;
                             Yaw := fadd32 (Yaw (Rot h1)) yaw;
                             HeadYaw := fadd32 (HeadYaw (Rot h1)) headYaw |} |} in
      let player1 := with_motion player h2 onGround in
      let chunkX := chunkCoordinate x in
      let chunkZ := chunkCoordinate z in
      let rs := Int32.mul (GetViewDistance player1) (GetViewDistance player1) in
      let '(used, trace) :=
        foldl (cullEntry (playerName player1) chunkX chunkZ rs)
              (usedChunks player1, []) order in
      Some (with_usedChunks player1 used, trace)
  end.

(** The squared planar distance between chunk coordinates, in exact
    integer arithmetic. *)
Definition exactSquaredDistance (chunkX chunkZ : Z) (chunk : IChunk) : Z :=
  (chunkX - GetX chunk) * (chunkX - GetX chunk)
  + (chunkZ - GetZ chunk) * (chunkZ - GetZ chunk).

(** Coordinates and a view distance for which the [int32] arithmetic of
    the cull pass is exact. *)
Definition noOverflow (distance chunkX chunkZ : Z) (chunk : IChunk) : Prop :=
  -46340 <= distance <= 46340 ∧
  -32767 <= chunkX - GetX chunk <= 32767 ∧
  -32767 <= chunkZ - GetZ chunk <= 32767.

(** What one visited entry adds to the calls made. *)
Definition cullEvents (viewer : string) (chunkX chunkZ rs : Z)
    (entry : Z * IChunk) : list Event :=
  if rs <? squaredDistance chunkX chunkZ entry.2
  then RemoveViewer entry.2 viewer :: despawnAll viewer entry.2
  else [].

(** One movement packet. *)
Record Move : Type := {
  moveOrder : list (Z * IChunk);
  moveX : float32; moveY : float32; moveZ : float32;
  movePitch : float32; moveYaw : float32; moveHeadYaw : float32;
  moveOnGround : bool
}.

Definition syncMove `{Float32Ops} (player : Player) (m : Move)
  : option (Player * list Event) :=
  SyncMove (moveOrder m) player (moveX m) (moveY m) (moveZ m)
           (movePitch m) (moveYaw m) (moveHeadYaw m) (moveOnGround m).

(** A run of movement syncs, each of which returns and each of which
    visits the tracked chunks in some order. *)
Inductive syncs `{Float32Ops} : Player → list Move → Player → Prop :=
| syncs_nil player : syncs player [] player
| syncs_cons player m player1 trace ms player2 :
    moveOrder m ≡ₚ map_to_list (usedChunks player) →
    syncMove player m = Some (player1, trace) →
    syncs player1 ms player2 →
    syncs player (m :: ms) player2.

(** *** Spawning and teleporting *)

Definition HasSpawned (player : Player) : bool := spawned player.

Definition SetSpawned (player : Player) (value : bool) : Player :=
  {| human := human player; playerName := playerName player;
     displayName := displayName player; spawned := value;
     permissions := permissions player; permissionGroup := permissionGroup player;
     onGround := onGround player; viewDistance := viewDistance player;
     skinId := skinId player; geometryName := geometryName player;
     geometryData := geometryData player; finalized := finalized player;
     usedChunks := usedChunks player |}.

(** [player.SendAddPlayer(player2)]: the call is made on the session of
    [sender] with [subject] as its argument. Players are pointers; they are
    told apart by their address. *)
Inductive SpawnEvent : Type :=
| SendAddPlayer (sender subject : Z).

Definition SpawnPlayerTo (self : Z) (player2 : Z * Player) : list SpawnEvent :=
  if negb (HasSpawned player2.2) then []
  else [SendAddPlayer self player2.1].

(** [SpawnPlayerToAll]: [online] is what [GetPlayers()] returns, in the
    order in which the loop visits it. *)
Definition SpawnPlayerToAll (self : Z) (online : list (Z * Player))
  : list SpawnEvent :=
  mjoin ((λ p, if bool_decide (self = p.1) then [] else SpawnPlayerTo self p)
           <$> online).

Inductive MoveMode : Type := MoveTeleport.

(** [SendMovePlayer(player, position, rotation, mode, onGround,
    ridingRuntimeId)], sent through the session of [receiver]. *)
Inductive MoveEvent : Type :=
| SendMovePlayer (receiver : string) (position : TripleVector)
    (rotation : Rotation) (mode : MoveMode) (onGround : bool)
    (ridingRuntimeId : Z).

(** [Teleport]: [None] when the player has no [Human] to set the position
    of. The rotation is sent, not stored. *)
Definition Teleport (player : Player) (v : TripleVector) (rot : Rotation)
  : option (Player * list MoveEvent) :=
  match human player with
  | None => None
  | Some h =>
      Some (with_motion player (SetPosition h v) (onGround player),
            [SendMovePlayer (playerName player) v rot MoveTeleport
                            (onGround player) 0])
  end.

(** The chunks of the [RemoveViewer] calls of a trace, in order. *)
Definition unsubscribed (trace : list Event) : list IChunk :=
  trace ≫= λ event,
    match event with
    | RemoveViewer chunk _ => [chunk]
    | _ => []
    end.

End Players.

(** ** Package [handlers] *)

Module Handlers.

Record LoginPacket : Type := {
  Username : string;
  ClientUUID : string;
  ClientXUID : string;
  ClientId : Z;
  Language : string;
  SkinId : string;
  SkinData : list Byte.byte;
  CapeData : list Byte.byte;
  GeometryName : string;
  GeometryData : list Byte.byte
}.

(** A decoded packet: a login packet, or a packet of another type (by its
    packet id). *)
Inductive IPacket : Type :=
| Login (loginPacket : LoginPacket)
| Other (packetId : Z).

Inductive OutPacket : Type :=
| PlayStatusPacket (Status : Z)
| ResourcePackInfoPacket.

(** Modelled from the spec: the player built by the six-argument
    [players.NewPlayer] and filled by its setters, missing here; the
    Identity of the data model, bound to the transport handle. *)
Record Player : Type := {
  name : string;
  uuid : string;
  xuid : string;
  clientId : Z;
  language : string;
  skinId : string;
  skinData : list Byte.byte;
  capeData : list Byte.byte;
  geometryName : string;
  geometryData : string;
  handle : Z
}.

(** Modelled from the spec: the player factory (registry), missing here;
    a server-wide mapping from player name to active session. *)
Record Server : Type := {
  players : gmap string Player
}.

Inductive Event : Type :=
| Constructed (player : Player)
| SendPacket (pk : OutPacket) (session : Z)
| AddedPlayer (player : Player) (session : Z).

(** Modelled from the spec: [GetPlayerByName], missing here. The handler
    compares its second result with nil, as one does a Go error: it is
    nil ([None]) when a session with this name was found. *)
Definition GetPlayerByName (server : Server) (username : string)
  : option Player * option string :=
  match players server !! username with
  | Some p => (Some p, None)
  | None => (None, Some "not online")
  end.

(** Modelled from the spec: [AddPlayer], missing here; it "inserts under
    the session's name key". *)
Definition AddPlayer (server : Server) (player : Player) (session : Z) : Server :=
  {| players := <[name player := player]> (players server) |}.

Definition Handle (packet : IPacket) (player : option Player) (session : Z)
    (server : Server) : bool * Server * list Event :=
  match packet with
  | Login loginPacket =>
      let '(_, online) := GetPlayerByName server (Username loginPacket) in
      match online with
      | None => (false, server, [])
      | Some _ =>
          let player :=
            {| name := Username loginPacket;
               uuid := ClientUUID loginPacket;
               xuid := ClientXUID loginPacket;
               clientId := ClientId loginPacket;
               language := Language loginPacket;
               skinId := SkinId loginPacket;
               skinData := SkinData loginPacket;
               capeData := CapeData loginPacket;
               geometryName := GeometryName loginPacket;
               geometryData := String.string_of_list_byte (GeometryData loginPacket);
               handle := session |} in
          (true, AddPlayer server player session,
           [Constructed player;
            SendPacket (PlayStatusPacket 0) session;
            SendPacket ResourcePackInfoPacket session;
            AddedPlayer player session])
      end
  | Other _ => (true, server, [])
  end.

(** [player] has, field by field, what the handler gives the player it
    builds from [loginPacket] for the connection [session]. *)
Definition builtFrom (loginPacket : LoginPacket) (session : Z) (player : Player)
  : Prop :=
  name player = Username loginPacket ∧
  uuid player = ClientUUID loginPacket ∧
  xuid player = ClientXUID loginPacket ∧
  clientId player = ClientId loginPacket ∧
  language player = Language loginPacket ∧
  skinId player = SkinId loginPacket ∧
  skinData player = SkinData loginPacket ∧
  capeData player = CapeData loginPacket ∧
  geometryName player = GeometryName loginPacket ∧
  geometryData player = String.string_of_list_byte (GeometryData loginPacket) ∧
  handle player = session.

End Handlers.

(** ** Concrete sessions, used to evaluate the operations *)

Module Examples.
Import Players.

Definition denyAll : Group := {| Group_HasPermission := λ _, false |}.

(** A group that grants "fly" and nothing else. *)
Definition pilots : Group :=
  {| Group_HasPermission := λ n, bool_decide (n = "fly") |}.

Definition fly (v : bool) : Permission := {| GetName := "fly"; GetValue := v |}.

Definition steve : Player := NewPlayer denyAll "Steve".

Definition pilot : Player := NewPlayer pilots "Steve".

(** "fly" overridden with the value false, in a group that denies it. *)
Definition grounded : Player := (AddPermission steve (fly false)).2.

Definition zero : float32 := F32 0 0.

Definition origin : TripleVector := {| X := zero; Y := zero; Z_ := zero |}.

Definition noRotation : Rotation := {| Pitch := zero; Yaw := zero; HeadYaw := zero |}.

Definition chunk00 : IChunk :=
  {| GetX := 0; GetZ := 0; GetEntities := [ {| RuntimeId := 7 |} ] |}.

Definition chunk30 : IChunk :=
  {| GetX := 3; GetZ := 0; GetEntities := [ {| RuntimeId := 8 |}; {| RuntimeId := 9 |} ] |}.

(** A player in the world at the origin who has been sent chunk (0,0),
    with the given view distance. *)
Definition watcher (distance : Z) : Player :=
  SetViewDistance
    (SendChunk (PlaceInWorld steve origin noRotation) chunk00 0).1 distance.

(** The same, who has also been sent chunk (3,0). *)
Definition watcher2 (distance : Z) : Player :=
  (SendChunk (watcher distance) chunk30 1).1.

Definition stand (order : list (Z * IChunk)) (x : float32) : Move :=
  {| moveOrder := order; moveX := x; moveY := zero; moveZ := zero;
     movePitch := zero; moveYaw := zero; moveHeadYaw := zero;
     moveOnGround := true |}.

(** In the world at the origin, view distance 2, no chunk sent yet. *)
Definition newcomer : Player :=
  SetViewDistance (PlaceInWorld steve origin noRotation) 2.

(** 1048576.0, the west edge of chunk 65536. *)
Definition farEast : float32 := F32 1 20.

Definition order2 : list (Z * IChunk) := map_to_list (usedChunks (watcher2 2)).

Definition loginSteve : Handlers.LoginPacket :=
  {| Handlers.Username := "Steve"; Handlers.ClientUUID := "uuid-1";
     Handlers.ClientXUID := "xuid-1"; Handlers.ClientId := 1;
     Handlers.Language := "en_US"; Handlers.SkinId := "Standard_Steve";
     Handlers.SkinData := []; Handlers.CapeData := [];
     Handlers.GeometryName := "geometry.humanoid";
     Handlers.GeometryData := [] |}.

Definition emptyServer : Handlers.Server := {| Handlers.players := ∅ |}.

(** A server on which "Steve" is already registered. *)
Definition busyServer : Handlers.Server :=
  (Handlers.Handle (Handlers.Login loginSteve) None 1 emptyServer).1.2.

End Examples.

(** ** Permissions *)

Section permissions.
Import Players.
Implicit Types (player : Player) (permission : Permission) (n : string).

Lemma with_permissions_id player :
  with_permissions player (permissions player) = player.
Proof. by destruct player. Qed.

Lemma HasPermission_true player n :
  HasPermission player n = true ↔
  Group_HasPermission (permissionGroup player) n = true ∨
  is_Some (permissions player !! n).
Proof.
  unfold HasPermission, GetPermissionGroup.
  destruct (Group_HasPermission _ n).
  - split; [by left | done].
  - rewrite bool_decide_eq_true. split; [by right | by intros [?|?]].
Qed.

Lemma HasPermission_false player n :
  HasPermission player n = false ↔
  Group_HasPermission (permissionGroup player) n = false ∧
  permissions player !! n = None.
Proof.
  unfold HasPermission, GetPermissionGroup.
  destruct (Group_HasPermission _ n).
  - split; [done | by intros [? _]].
  - rewrite bool_decide_eq_false, eq_None_not_Some. split; [done | by intros [_ ?]].
Qed.

Lemma AddPermission_result player permission :
  AddPermission player permission =
  (HasPermission player (GetName permission),
   with_permissions player
     (<[GetName permission := permission]> (permissions player))).
Proof. reflexivity. Qed.

Lemma RemovePermission_result player n :
  RemovePermission player n =
  if HasPermission player n
  then (true, with_permissions player (delete n (permissions player)))
  else (false, player).
Proof. unfold RemovePermission. by destruct (HasPermission player n). Qed.

(** C3, as the code has it: [HasPermission] is true exactly when the
    group grants the name or an override for the name exists; the value
    the override carries is not looked at. *)
Theorem HasPermission_group_or_override player n :
  HasPermission player n = true ↔
  Group_HasPermission (GetPermissionGroup player) n = true ∨
  ∃ permission, permissions player !! n = Some permission.
Proof. apply HasPermission_true. Qed.

(** C3 as stated fails: with "fly" overridden by a permission whose value
    is false, in a group that denies it, [HasPermission] is true. *)
Lemma HasPermission_ignores_value :
  ¬ (HasPermission Examples.grounded "fly" = true ↔
     Group_HasPermission (GetPermissionGroup Examples.grounded) "fly" = true ∨
     ∃ permission, permissions Examples.grounded !! "fly" = Some permission ∧
                   GetValue permission = true).
Proof.
  intros [Hcode _].
  destruct Hcode as [Hgroup | (permission & Hlookup & Hvalue)].
  - vm_compute. reflexivity.
  - discriminate Hgroup.
  - vm_compute in Hlookup. injection Hlookup as <-. discriminate Hvalue.
Qed.

(** C4 at the failing input: the group grants "fly", the player has no
    override for it, and [AddPermission] reports an overwrite. *)
Theorem AddPermission_reports_group_grant :
  permissions Examples.pilot !! "fly" = None ∧
  (AddPermission Examples.pilot (Examples.fly true)).1 = true ∧
  permissions (AddPermission Examples.pilot (Examples.fly true)).2 !! "fly"
    = Some (Examples.fly true).
Proof. vm_compute. done. Qed.

(** C5, as the code has it: where no override exists for the name,
    [RemovePermission] leaves the session as it is, and returns whether
    the group grants the name. *)
Theorem RemovePermission_no_override player n :
  permissions player !! n = None →
  RemovePermission player n =
  (Group_HasPermission (GetPermissionGroup player) n, player).
Proof.
  intros Hnone. unfold GetPermissionGroup. rewrite RemovePermission_result.
  destruct (HasPermission player n) eqn:Hhas.
  - apply HasPermission_true in Hhas as [-> | [? Hsome]]; [|congruence].
    by rewrite delete_id, with_permissions_id.
  - apply HasPermission_false in Hhas as [-> _]. done.
Qed.

Lemma RemovePermission_no_override_pilot :
  permissions Examples.pilot !! "fly" = None ∧
  RemovePermission Examples.pilot "fly" = (true, Examples.pilot).
Proof.
  split; [reflexivity |].
  apply (RemovePermission_no_override Examples.pilot "fly"). reflexivity.
Defined.

(** C5 as stated fails: the player has no override for "fly", the group
    grants it, and [RemovePermission] returns true. *)
Lemma RemovePermission_group_grant_returns_true :
  ¬ (permissions Examples.pilot !! "fly" = None →
     RemovePermission Examples.pilot "fly" = (false, Examples.pilot)).
Proof.
  intros Hclaim. specialize (Hclaim eq_refl).
  apply (f_equal fst) in Hclaim. vm_compute in Hclaim. discriminate Hclaim.
Qed.

(** C9: in a group that denies "fly" and with no override for it, adding
    a permission named "fly" makes [HasPermission "fly"] true; removing
    it again makes it false, and the session is as it was. *)
Theorem fly_added_then_removed player permission :
  GetName permission = "fly" →
  Group_HasPermission (GetPermissionGroup player) "fly" = false →
  permissions player !! "fly" = None →
  let player1 := (AddPermission player permission).2 in
  let player2 := (RemovePermission player1 "fly").2 in
  HasPermission player1 "fly" = true ∧
  (RemovePermission player1 "fly").1 = true ∧
  HasPermission player2 "fly" = false ∧
  player2 = player.
Proof.
  intros Hname Hgroup Hnone player1 player2. unfold GetPermissionGroup in Hgroup.
  assert (Hhas : HasPermission player1 "fly" = true).
  { apply HasPermission_true. right. subst player1. simpl.
    rewrite Hname, lookup_insert_eq. by eexists. }
  assert (Hback : player2 = player).
  { subst player2. rewrite RemovePermission_result, Hhas.
    subst player1. simpl. rewrite Hname, delete_insert_id by done.
    by destruct player. }
  repeat split; [done | | | done].
  - by rewrite RemovePermission_result, Hhas.
  - rewrite Hback. by apply HasPermission_false.
Qed.

Lemma fly_added_then_removed_steve :
  HasPermission (AddPermission Examples.steve (Examples.fly true)).2 "fly" = true ∧
  HasPermission
    (RemovePermission (AddPermission Examples.steve (Examples.fly true)).2 "fly").2
    "fly" = false.
Proof.
  pose proof (fly_added_then_removed Examples.steve (Examples.fly true)
                eq_refl eq_refl eq_refl) as (Hadd & _ & Hrem & _).
  split; [exact Hadd | exact Hrem].
Defined.

End permissions.

(** ** The login handler *)

Section login.
Import Handlers.

(** C6: when a session with the login packet's username is registered,
    [Handle] returns false, leaves the registry as it is, and neither
    builds a player nor sends a packet. *)
Theorem Handle_duplicate_name loginPacket player session server :
  is_Some (players server !! Username loginPacket) →
  Handle (Login loginPacket) player session server = (false, server, []).
Proof.
  intros [registered Hreg]. unfold Handle, GetPlayerByName. by rewrite Hreg.
Qed.

Lemma Handle_duplicate_name_steve :
  is_Some (players Examples.busyServer !! Username Examples.loginSteve) ∧
  Handle (Login Examples.loginSteve) None 2 Examples.busyServer
  = (false, Examples.busyServer, []).
Proof.
  assert (Hreg : is_Some (players Examples.busyServer
                            !! Username Examples.loginSteve)).
  { eexists. vm_compute. reflexivity. }
  split; [exact Hreg |].
  exact (Handle_duplicate_name Examples.loginSteve None 2 Examples.busyServer Hreg).
Defined.

(** C10: on a packet that is not a login packet, [Handle] returns true,
    leaves the registry as it is, and neither builds a player nor sends
    a packet. *)
Theorem Handle_not_login packet player session server :
  (∀ loginPacket, packet ≠ Login loginPacket) →
  Handle packet player session server = (true, server, []).
Proof.
  intros Hother. destruct packet as [loginPacket | packetId]; [|done].
  by destruct (Hother loginPacket).
Qed.

Lemma Handle_not_login_other :
  Handle (Other 5) None 2 Examples.busyServer = (true, Examples.busyServer, []).
Proof. apply Handle_not_login. intros loginPacket. discriminate. Defined.

End login.

(** ** Arithmetic of the cull pass *)

Section arithmetic.
Import Players.

Lemma wrap_in_range z : Int32.in_range z → Int32.wrap z = z.
Proof.
  unfold Int32.in_range, Int32.min_int, Int32.max_int, Int32.wrap. intros Hz.
  rewrite Z.mod_small; lia.
Qed.

Lemma wrap_is_int32 z : Int32.in_range (Int32.wrap z).
Proof.
  unfold Int32.in_range, Int32.min_int, Int32.max_int, Int32.wrap.
  pose proof (Z.mod_pos_bound (z + 2147483648) 4294967296). lia.
Qed.

Lemma square_bound a k : 0 <= k → -k <= a <= k → 0 <= a * a <= k * k.
Proof. intros Hk Ha. nia. Qed.

Lemma sum_of_squares_nonpos a b : a * a + b * b <= 0 → a = 0 ∧ b = 0.
Proof.
  intros Hsum.
  pose proof (Z.square_nonneg a) as Ha. pose proof (Z.square_nonneg b) as Hb.
  assert (a * a = 0) as Ha0 by lia. assert (b * b = 0) as Hb0 by lia.
  apply Z.mul_eq_0 in Ha0, Hb0. lia.
Qed.

Lemma squaredDistance_exact distance chunkX chunkZ chunk :
  noOverflow distance chunkX chunkZ chunk →
  squaredDistance chunkX chunkZ chunk = exactSquaredDistance chunkX chunkZ chunk.
Proof.
  intros (_ & Hx & Hz). unfold squaredDistance, exactSquaredDistance.
  unfold Int32.sub, Int32.add, Int32.mul.
  pose proof (square_bound _ 32767 ltac:(lia) Hx) as Hxx.
  pose proof (square_bound _ 32767 ltac:(lia) Hz) as Hzz.
  rewrite (wrap_in_range (chunkX - GetX chunk)),
          (wrap_in_range (chunkZ - GetZ chunk))
    by (unfold Int32.in_range, Int32.min_int, Int32.max_int; lia).
  rewrite !(wrap_in_range (_ * _))
    by (unfold Int32.in_range, Int32.min_int, Int32.max_int; lia).
  apply wrap_in_range.
  unfold Int32.in_range, Int32.min_int, Int32.max_int; lia.
Qed.

Lemma radiusSquared_exact distance chunkX chunkZ chunk :
  noOverflow distance chunkX chunkZ chunk →
  Int32.mul distance distance = distance * distance.
Proof.
  intros (Hd & _). unfold Int32.mul.
  pose proof (square_bound _ 46340 ltac:(lia) Hd).
  apply wrap_in_range.
  unfold Int32.in_range, Int32.min_int, Int32.max_int; lia.
Qed.

(** A finite coordinate that fits [int32] floors to [m * 2^e] rounded
    down, and the chunk coordinate is that, shifted right by 4. *)
Lemma chunkCoordinate_finite `{Float32Ops} m e :
  Int32.in_range (Z.shiftl m e) →
  chunkCoordinate (F32 m e) = Z.shiftr (Z.shiftl m e) 4.
Proof.
  intros [Hlo Hhi]. unfold chunkCoordinate, int32_of_Floor, Int32.in_rangeb. simpl.
  destruct (Z.leb_spec Int32.min_int (Z.shiftl m e)); [|lia].
  destruct (Z.leb_spec (Z.shiftl m e) Int32.max_int); [done|lia].
Qed.

End arithmetic.

(** ** The cull pass *)

Section cull.
Import Players.
Context `{Float32Ops}.
Implicit Types (used : gmap Z IChunk) (order : list (Z * IChunk)).
Implicit Types (trace : list Event) (player : Player).

Lemma cull_fold_trace viewer cx cz rs order used trace :
  (foldl (cullEntry viewer cx cz rs) (used, trace) order).2 =
  trace ++ mjoin (cullEvents viewer cx cz rs <$> order).
Proof.
  revert used trace.
  induction order as [|[index chunk] order IH]; intros used trace; simpl.
  - by rewrite app_nil_r.
  - unfold cullEvents at 1. simpl.
    destruct (rs <? squaredDistance cx cz chunk); rewrite IH; [|done].
    by rewrite <-app_assoc.
Qed.

Lemma cull_fold_lookup viewer cx cz rs order used trace i chunk :
  (foldl (cullEntry viewer cx cz rs) (used, trace) order).1 !! i = Some chunk ↔
  used !! i = Some chunk ∧
  ∀ visited, (i, visited) ∈ order → squaredDistance cx cz visited <= rs.
Proof.
  revert used trace.
  induction order as [|[index c] order IH]; intros used trace; simpl.
  - split; [intros Hl; split; [done|] | by intros [Hl _]].
    intros visited Hin. by apply elem_of_nil in Hin.
  - destruct (Z.ltb_spec rs (squaredDistance cx cz c)) as [Hfar | Hnear].
    + rewrite IH. simpl. rewrite lookup_delete_Some. split.
      * intros [[Hne Hl] Hall]. split; [done|].
        intros visited [Heq | Hin]%elem_of_cons; [congruence | by apply Hall].
      * intros [Hl Hall].
        assert (index ≠ i) as Hne.
        { intros ->. specialize (Hall c (list_elem_of_here _ _)). lia. }
        repeat split; [done | done |].
        intros visited Hin. apply Hall. by right.
    + rewrite IH. split; intros [Hl Hall]; (split; [done|]).
      * intros visited [Heq | Hin]%elem_of_cons; [|by apply Hall].
        injection Heq as -> ->. done.
      * intros visited Hin. apply Hall. by right.
Qed.

(** Whatever the order of the visit, the pass keeps the entries whose
    distance, as the code computes it, is at most [rs]. *)
Lemma cull_fold_filter viewer cx cz rs order used trace :
  order ≡ₚ map_to_list used →
  (foldl (cullEntry viewer cx cz rs) (used, trace) order).1 =
  filter (λ entry, squaredDistance cx cz entry.2 <= rs) used.
Proof.
  intros Hperm. apply map_eq. intros i. apply option_eq. intros chunk.
  rewrite cull_fold_lookup, map_lookup_filter_Some. simpl. split.
  - intros [Hl Hall]. split; [done|]. apply Hall.
    rewrite Hperm. by apply elem_of_map_to_list.
  - intros [Hl Hnear]. split; [done|]. intros visited Hin.
    rewrite Hperm in Hin. apply elem_of_map_to_list in Hin.
    by replace visited with chunk by congruence.
Qed.

(** [SyncMove] returns for a player who is in a world. *)
Lemma SyncMove_returns order player x y z pitch yaw headYaw g :
  is_Some (human player) →
  is_Some (SyncMove order player x y z pitch yaw headYaw g).
Proof.
  intros [h Hh]. unfold SyncMove. rewrite Hh.
  by destruct (foldl _ _ order).
Qed.

(** What a sync that returns has done. *)
Lemma SyncMove_Some order player x y z pitch yaw headYaw g player' trace :
  SyncMove order player x y z pitch yaw headYaw g = Some (player', trace) →
  order ≡ₚ map_to_list (usedChunks player) →
  usedChunks player' =
    filter (λ entry, squaredDistance (chunkCoordinate x) (chunkCoordinate z) entry.2
                     <= Int32.mul (viewDistance player) (viewDistance player))
           (usedChunks player) ∧
  trace = mjoin (cullEvents (playerName player) (chunkCoordinate x) (chunkCoordinate z)
                   (Int32.mul (viewDistance player) (viewDistance player)) <$> order) ∧
  viewDistance player' = viewDistance player ∧
  finalized player' = finalized player ∧
  permissions player' = permissions player ∧
  onGround player' = g.
Proof.
  unfold SyncMove. destruct (human player) as [h|]; [|done]. simpl.
  unfold GetViewDistance. simpl.
  destruct (foldl _ _ order) as [used tr] eqn:Hfold.
  intros [= <- <-] Hperm. simpl. repeat split.
  - rewrite <-(cull_fold_filter (playerName player) _ _ _ order _ []) by done.
    by rewrite Hfold.
  - pose proof (cull_fold_trace (playerName player) (chunkCoordinate x)
                  (chunkCoordinate z)
                  (Int32.mul (viewDistance player) (viewDistance player))
                  order (usedChunks player) []) as Htr.
    by rewrite Hfold in Htr.
Qed.

End cull.

(** ** Tracked chunks over movement syncs *)

Section visibility.
Import Players.
Context `{Float32Ops}.
Implicit Types (player : Player) (m : Move) (ms : list Move).

Lemma syncs_viewDistance player ms player' :
  syncs player ms player' → viewDistance player' = viewDistance player.
Proof.
  induction 1 as [|player m player1 trace ms player2 Hperm Hsync _ IH]; [done|].
  apply SyncMove_Some in Hsync as (_ & _ & Hvd & _); [|done]. congruence.
Qed.

(** Where the arithmetic does not overflow, an entry is culled exactly
    when its squared distance exceeds the view distance squared, and the
    calls made for it are the unsubscription followed by one despawn for
    each entity of the chunk. *)
Lemma cullEvents_exact viewer distance cx cz (entry : Z * IChunk) :
  noOverflow distance cx cz entry.2 →
  cullEvents viewer cx cz (Int32.mul distance distance) entry =
  if distance * distance <? exactSquaredDistance cx cz entry.2
  then RemoveViewer entry.2 viewer
       :: ((λ entity, DespawnFrom entity viewer) <$> GetEntities entry.2)
  else [].
Proof.
  intros Hexact. unfold cullEvents, despawnAll.
  by rewrite (squaredDistance_exact _ _ _ _ Hexact),
             (radiusSquared_exact _ _ _ _ Hexact).
Qed.

(** X19: where the arithmetic does not overflow, a sync keeps exactly the
    tracked entries whose squared distance to the synced chunk coordinate
    is at most the view distance squared, and its calls are, entry by
    entry in the order of the visit, the unsubscription and the despawns
    of each dropped chunk. *)
Lemma SyncMove_cull_exact order player x y z pitch yaw headYaw g player' trace :
  SyncMove order player x y z pitch yaw headYaw g = Some (player', trace) →
  order ≡ₚ map_to_list (usedChunks player) →
  (∀ i chunk, usedChunks player !! i = Some chunk →
              noOverflow (viewDistance player) (chunkCoordinate x)
                         (chunkCoordinate z) chunk) →
  (∀ i chunk,
     usedChunks player' !! i = Some chunk ↔
     usedChunks player !! i = Some chunk ∧
     exactSquaredDistance (chunkCoordinate x) (chunkCoordinate z) chunk
     <= viewDistance player * viewDistance player) ∧
  trace = mjoin ((λ entry : Z * IChunk,
                    if viewDistance player * viewDistance player
                       <? exactSquaredDistance (chunkCoordinate x) (chunkCoordinate z) entry.2
                    then RemoveViewer entry.2 (playerName player)
                         :: ((λ entity, DespawnFrom entity (playerName player))
                               <$> GetEntities entry.2)
                    else []) <$> order).
Proof.
  intros Hsync Hperm Hexact.
  apply SyncMove_Some in Hsync as (Hused & Htrace & _); [|done]. split.
  - intros i chunk. rewrite Hused, map_lookup_filter_Some. simpl.
    split; intros [Hl Hnear]; (split; [done|]);
      pose proof (Hexact i chunk Hl) as Hc;
      by rewrite (squaredDistance_exact _ _ _ _ Hc),
                 (radiusSquared_exact _ _ _ _ Hc) in *.
  - rewrite Htrace. f_equal. apply list_fmap_ext. intros k [i chunk] Hk.
    apply cullEvents_exact. simpl. apply (Hexact i).
    apply elem_of_map_to_list. rewrite <-Hperm.
    apply list_elem_of_lookup. by exists k.
Qed.

(** C1, as the code has it: over any run of movement syncs, an entry is
    tracked at the end exactly when it was tracked at the start and lay
    within the view distance of the synced chunk coordinate at every
    sync. The pass only removes: a chunk in range that was not tracked
    is not added. *)
Theorem tracked_after_syncs player ms player' i chunk :
  syncs player ms player' →
  (∀ m, m ∈ ms →
        noOverflow (viewDistance player) (chunkCoordinate (moveX m))
                   (chunkCoordinate (moveZ m)) chunk) →
  usedChunks player' !! i = Some chunk ↔
  usedChunks player !! i = Some chunk ∧
  ∀ m, m ∈ ms →
       exactSquaredDistance (chunkCoordinate (moveX m)) (chunkCoordinate (moveZ m)) chunk
       <= viewDistance player * viewDistance player.
Proof.
  induction 1 as [|player m player1 trace ms player2 Hperm Hsync Hrest IH];
    intros Hexact.
  - split; [intros Hl; split; [done|] | by intros [Hl _]].
    intros m Hin. by apply elem_of_nil in Hin.
  - apply SyncMove_Some in Hsync as (Hused & _ & Hvd & _); [|done].
    rewrite IH by (intros m' Hin; rewrite Hvd; apply Hexact; by right).
    rewrite Hused, map_lookup_filter_Some, Hvd. simpl.
    pose proof (Hexact m (list_elem_of_here _ _)) as Hm.
    rewrite (squaredDistance_exact _ _ _ _ Hm), (radiusSquared_exact _ _ _ _ Hm).
    split.
    + intros [[Hl Hnear] Hall]. split; [done|].
      intros m' [-> | Hin]%elem_of_cons; [done | by apply Hall].
    + intros [Hl Hall]. repeat split; [done | |].
      * apply Hall. by left.
      * intros m' Hin. apply Hall. by right.
Qed.

(** C8, as the code has it: with view distance 0 the pass keeps the
    tracked chunks at the player's own chunk coordinate and drops the
    others. *)
Theorem SyncMove_view_distance_zero order player x y z pitch yaw headYaw g
    player' trace i chunk :
  GetViewDistance player = 0 →
  order ≡ₚ map_to_list (usedChunks player) →
  SyncMove order player x y z pitch yaw headYaw g = Some (player', trace) →
  noOverflow 0 (chunkCoordinate x) (chunkCoordinate z) chunk →
  usedChunks player' !! i = Some chunk ↔
  usedChunks player !! i = Some chunk ∧
  GetX chunk = chunkCoordinate x ∧ GetZ chunk = chunkCoordinate z.
Proof.
  unfold GetViewDistance. intros Hvd Hperm Hsync Hexact.
  apply SyncMove_Some in Hsync as (Hused & _); [|done].
  rewrite Hused, map_lookup_filter_Some, Hvd. simpl.
  rewrite (squaredDistance_exact _ _ _ _ Hexact). unfold exactSquaredDistance.
  change (Int32.mul 0 0) with 0.
  split.
  - intros [Hl Hnear]. split; [done|].
    apply sum_of_squares_nonpos in Hnear. lia.
  - intros [Hl [Hx Hz]]. split; [done|]. rewrite Hx, Hz. lia.
Qed.

(** C7, as the code has it: [SetFinalized] sets the flag and nothing
    else; [SendChunk] and [SyncMove] do not look at it, so a finalized
    player keeps its tracked chunks and can still be sent one. On the
    finalized player both do what they do on the player as it was, calls
    included, and the result differs only by the flag. *)
Theorem finalized_is_only_a_flag player chunk index order x y z pitch yaw headYaw g :
  IsFinalized (SetFinalized player) = true ∧
  usedChunks (SetFinalized player) = usedChunks player ∧
  IsFinalized (SendChunk (SetFinalized player) chunk index).1 = true ∧
  usedChunks (SendChunk (SetFinalized player) chunk index).1
    = <[index := chunk]> (usedChunks player) ∧
  match SyncMove order (SetFinalized player) x y z pitch yaw headYaw g with
  | Some (player1, _) => IsFinalized player1 = true
  | None => human player = None
  end ∧
  SendChunk (SetFinalized player) chunk index
    = (SetFinalized (SendChunk player chunk index).1,
       (SendChunk player chunk index).2) ∧
  SyncMove order (SetFinalized player) x y z pitch yaw headYaw g
    = (λ result, (SetFinalized result.1, result.2))
        <$> SyncMove order player x y z pitch yaw headYaw g.
Proof.
  do 4 (split; [done|]).
  split; [|split; [done|]].
  - unfold SyncMove. simpl. destruct (human player); [|done].
    by destruct (foldl _ _ order).
  - unfold SyncMove. simpl. destruct (human player); [|done]. simpl.
    unfold GetViewDistance. simpl.
    by destruct (foldl _ _ order).
Qed.

End visibility.

Section visibility_examples.
Import Players Examples.

(** A player at the origin with view distance 2 who tracks chunks (0,0)
    and (3,0): the sync drops (3,0), unsubscribes from it and despawns its
    two entities; (0,0) stays. *)
Example SyncMove_culls_chunk30 :
  match SyncMove (H := amd64_ops) [(0, chunk00); (1, chunk30)] (watcher2 2)
          zero zero zero zero zero zero true with
  | Some (player', trace) =>
      usedChunks player' !! 0 = Some chunk00 ∧
      usedChunks player' !! 1 = None ∧
      trace = [RemoveViewer chunk30 "Steve";
               DespawnFrom {| RuntimeId := 8 |} "Steve";
               DespawnFrom {| RuntimeId := 9 |} "Steve"]
  | None => False
  end.
Proof. vm_compute. repeat split. Qed.

Example chunkCoordinate_negative :
  chunkCoordinate (H := amd64_ops) (F32 (-1) (-1)) = -1 ∧
  chunkCoordinate (H := amd64_ops) (F32 33 0) = 2 ∧
  chunkCoordinate (H := amd64_ops) (F32 (-17) 0) = -2.
Proof. vm_compute. repeat split. Qed.

(** C1 as stated fails: a player with view distance 2 and no tracked
    chunk syncs at the origin; chunk (0,0) is at distance 0 and is not
    tracked afterwards. *)
Lemma SyncMove_adds_no_chunk :
  match syncMove (H := amd64_ops) newcomer (stand [] zero) with
  | Some (player', _) =>
      ¬ ((∃ i, usedChunks player' !! i = Some chunk00) ↔
         exactSquaredDistance (chunkCoordinate (H := amd64_ops) zero)
                              (chunkCoordinate (H := amd64_ops) zero) chunk00
         <= GetViewDistance player' * GetViewDistance player')
  | None => False
  end.
Proof.
  destruct (syncMove newcomer (stand [] zero)) as [[player' trace]|] eqn:Hsync;
    [|vm_compute in Hsync; discriminate Hsync].
  apply SyncMove_Some in Hsync as (Hused & _ & Hvd & _); [|reflexivity].
  unfold GetViewDistance. rewrite Hvd. intros [_ Hclaim].
  destruct Hclaim as [i Hi]; [vm_compute; discriminate|].
  rewrite Hused in Hi. apply map_lookup_filter_Some in Hi as [Hi _].
  change ((∅ : gmap Z IChunk) !! i = Some chunk00) in Hi.
  by rewrite lookup_empty in Hi.
Qed.

Lemma tracked_after_syncs_watcher2 :
  ∃ player' trace,
    syncMove (H := amd64_ops) (watcher2 2) (stand order2 zero) = Some (player', trace) ∧
    (usedChunks player' !! 1 = Some chunk30 ↔
     usedChunks (watcher2 2) !! 1 = Some chunk30 ∧
     ∀ m, m ∈ [stand order2 zero] →
          exactSquaredDistance (chunkCoordinate (H := amd64_ops) (moveX m))
                               (chunkCoordinate (H := amd64_ops) (moveZ m)) chunk30
          <= viewDistance (watcher2 2) * viewDistance (watcher2 2)).
Proof.
  destruct (syncMove (H := amd64_ops) (watcher2 2) (stand order2 zero))
    as [[player' trace]|] eqn:Hsync; [|vm_compute in Hsync; discriminate Hsync].
  exists player', trace. split; [reflexivity|].
  apply (tracked_after_syncs (H := amd64_ops) (watcher2 2) [stand order2 zero]).
  - eapply syncs_cons; [reflexivity | exact Hsync | apply syncs_nil].
  - intros m Hin. apply list_elem_of_singleton in Hin as ->.
    repeat split; vm_compute; discriminate.
Defined.

(** C8 as stated fails: with view distance 0, a player who stands in
    chunk (0,0) and tracks it still tracks it after the sync. *)
Lemma SyncMove_view_distance_zero_keeps_chunk :
  GetViewDistance (watcher 0) = 0 ∧
  match syncMove (H := amd64_ops) (watcher 0) (stand [(0, chunk00)] zero) with
  | Some (player', _) => usedChunks player' ≠ ∅
  | None => False
  end.
Proof.
  split; [reflexivity|].
  destruct (syncMove (watcher 0) (stand [(0, chunk00)] zero))
    as [[player' trace]|] eqn:Hsync; [|vm_compute in Hsync; discriminate Hsync].
  vm_compute in Hsync. injection Hsync as <- _.
  intros Hempty. apply (f_equal (λ used, used !! 0)) in Hempty.
  vm_compute in Hempty. discriminate Hempty.
Qed.

Lemma SyncMove_view_distance_zero_watcher :
  ∃ player' trace,
    SyncMove (H := amd64_ops) [(0, chunk00)] (watcher 0) zero zero zero zero zero zero true
    = Some (player', trace) ∧
    (usedChunks player' !! 0 = Some chunk00 ↔
     usedChunks (watcher 0) !! 0 = Some chunk00 ∧
     GetX chunk00 = chunkCoordinate (H := amd64_ops) zero ∧
     GetZ chunk00 = chunkCoordinate (H := amd64_ops) zero).
Proof.
  destruct (SyncMove (H := amd64_ops) [(0, chunk00)] (watcher 0)
              zero zero zero zero zero zero true)
    as [[player' trace]|] eqn:Hsync; [|vm_compute in Hsync; discriminate Hsync].
  exists player', trace. split; [reflexivity|].
  apply (SyncMove_view_distance_zero (H := amd64_ops) [(0, chunk00)] (watcher 0)
           zero zero zero zero zero zero true player' trace 0 chunk00).
  - reflexivity.
  - replace (map_to_list (usedChunks (watcher 0))) with [(0, chunk00)]
      by (vm_compute; reflexivity).
    reflexivity.
  - exact Hsync.
  - repeat split; vm_compute; discriminate.
Defined.

(** C7 as stated fails: a player who tracks a chunk and is then
    finalized still tracks it. *)
Lemma finalized_with_tracked_chunk :
  ¬ (IsFinalized (SetFinalized (watcher 2)) = true →
     usedChunks (SetFinalized (watcher 2)) = ∅).
Proof.
  intros Hclaim. specialize (Hclaim eq_refl).
  apply (f_equal (λ used, used !! 0)) in Hclaim.
  vm_compute in Hclaim. discriminate Hclaim.
Qed.

(** C2 at the failing input: the player tracks chunk (0,0) with view
    distance 1 and syncs at x = 1048576.0, in chunk 65536. The exact
    squared distance is 65536 * 65536, far above 1; in [int32] the
    product is 0, the chunk stays tracked, and no call is made. *)
Theorem SyncMove_keeps_chunk_65536_away :
  chunkCoordinate (H := amd64_ops) farEast = 65536 ∧
  GetViewDistance (watcher 1) * GetViewDistance (watcher 1)
    < exactSquaredDistance 65536 0 chunk00 ∧
  squaredDistance 65536 0 chunk00 = 0 ∧
  [(0, chunk00)] = map_to_list (usedChunks (watcher 1)) ∧
  match SyncMove (H := amd64_ops) [(0, chunk00)] (watcher 1)
          farEast zero zero zero zero zero true with
  | Some (player', trace) => usedChunks player' !! 0 = Some chunk00 ∧ trace = []
  | None => False
  end.
Proof. vm_compute. repeat split. Qed.

End visibility_examples.

(** ** More on permissions *)

Section permissions_compose.
Import Players.
Implicit Types (player : Player) (permission : Permission) (n : string).

Lemma HasPermission_orb player n :
  HasPermission player n =
  Group_HasPermission (permissionGroup player) n
  || bool_decide (is_Some (permissions player !! n)).
Proof.
  unfold HasPermission, GetPermissionGroup.
  by destruct (Group_HasPermission _ n).
Qed.

(** X1: after [AddPermission] the player has the permission of that name,
    and has every other permission exactly as before. *)
Theorem AddPermission_then_HasPermission player permission n :
  HasPermission (AddPermission player permission).2 n =
  bool_decide (n = GetName permission) || HasPermission player n.
Proof.
  apply Bool.eq_iff_eq_true.
  rewrite orb_true_iff, bool_decide_eq_true, !HasPermission_true.
  change (permissions (AddPermission player permission).2)
    with (<[GetName permission := permission]> (permissions player)).
  change (permissionGroup (AddPermission player permission).2)
    with (permissionGroup player).
  destruct (decide (n = GetName permission)) as [-> | Hne].
  - rewrite lookup_insert_eq. split; [by left | intros _; right; by eexists].
  - rewrite lookup_insert_ne by done.
    split; [by right | by intros [? | ?]].
Qed.

(** X2: after [RemovePermission] of a name, whatever it returned, no
    override for the name is left, the player has the name exactly when
    the group grants it, and every other name is as before. *)
Theorem RemovePermission_then_HasPermission player n n' :
  permissions (RemovePermission player n).2 !! n = None ∧
  GetPermissionGroup (RemovePermission player n).2 = GetPermissionGroup player ∧
  HasPermission (RemovePermission player n).2 n' =
  if decide (n' = n) then Group_HasPermission (GetPermissionGroup player) n
  else HasPermission player n'.
Proof.
  rewrite RemovePermission_result. unfold GetPermissionGroup.
  destruct (HasPermission player n) eqn:Hhas.
  - change (permissions (true, with_permissions player (delete n (permissions player))).2)
      with (delete n (permissions player)).
    split; [apply lookup_delete_eq | split; [done|]].
    apply Bool.eq_iff_eq_true. rewrite HasPermission_true.
    change (permissions (true, with_permissions player (delete n (permissions player))).2)
      with (delete n (permissions player)).
    change (permissionGroup (true, with_permissions player (delete n (permissions player))).2)
      with (permissionGroup player).
    case_decide as Hn.
    + subst n'. rewrite lookup_delete_eq. split; [|by left].
      intros [Hgroup | [? ?]]; done.
    + rewrite lookup_delete_ne by done. by rewrite HasPermission_true.
  - apply HasPermission_false in Hhas as [Hgroup Hnone].
    split; [done | split; [done|]]. case_decide as Hn; [|done].
    subst n'. rewrite Hgroup. by apply HasPermission_false.
Qed.

(** X3: adding a second permission under a name that has just been added
    reports the overwrite, whatever the group grants, and leaves only the
    second one stored. *)
Theorem AddPermission_twice player first second :
  GetName first = GetName second →
  (AddPermission (AddPermission player first).2 second).1 = true ∧
  permissions (AddPermission (AddPermission player first).2 second).2
  = <[GetName second := second]> (permissions player).
Proof.
  intros Hname.
  change (permissions (AddPermission (AddPermission player first).2 second).2)
    with (<[GetName second := second]>
            (<[GetName first := first]> (permissions player))).
  split.
  - apply HasPermission_true. right.
    change (permissions (AddPermission player first).2)
      with (<[GetName first := first]> (permissions player)).
    rewrite <-Hname, lookup_insert_eq. by eexists.
  - by rewrite Hname, insert_insert_eq.
Qed.

Lemma AddPermission_twice_fly :
  (AddPermission (AddPermission Examples.steve (Examples.fly false)).2
     (Examples.fly true)).1 = true ∧
  permissions (AddPermission (AddPermission Examples.steve (Examples.fly false)).2
                 (Examples.fly true)).2
  = <[GetName (Examples.fly true) := Examples.fly true]> (permissions Examples.steve).
Proof.
  apply (AddPermission_twice Examples.steve (Examples.fly false) (Examples.fly true)).
  reflexivity.
Defined.

End permissions_compose.

(** ** More on the login handler *)

Section login_compose.
Import Handlers.

Lemma Handle_new_name loginPacket player session server :
  players server !! Username loginPacket = None →
  ∃ registered,
    builtFrom loginPacket session registered ∧
    Handle (Login loginPacket) player session server =
    (true, {| players := <[Username loginPacket := registered]> (players server) |},
     [Constructed registered;
      SendPacket (PlayStatusPacket 0) session;
      SendPacket ResourcePackInfoPacket session;
      AddedPlayer registered session]).
Proof.
  intros Hfree. unfold Handle, GetPlayerByName. rewrite Hfree.
  eexists. split; [|reflexivity]. by repeat split.
Qed.

(** X4: [Handle] returns false only for a login packet whose username is
    already registered; in every other case it returns true. *)
Theorem Handle_false_iff_duplicate packet player session server :
  (Handle packet player session server).1.1 = false ↔
  ∃ loginPacket, packet = Login loginPacket ∧
                 is_Some (players server !! Username loginPacket).
Proof.
  split.
  - destruct packet as [loginPacket | packetId]; [|done].
    destruct (players server !! Username loginPacket) as [registered|] eqn:Hreg.
    + intros _. exists loginPacket. split; [done|]. rewrite Hreg. by eexists.
    + destruct (Handle_new_name loginPacket player session server Hreg)
        as (registered & _ & ->). done.
  - intros (loginPacket & -> & [registered Hreg]).
    unfold Handle, GetPlayerByName. by rewrite Hreg.
Qed.

(** X5: a first login under a free name succeeds: the player is built
    from the packet, every field from the field of the packet that the
    handler passes on, the status packet and then the resource pack packet
    are sent to the session, and the player is registered under the name.
    A second login under that name, from any session, is then refused and
    changes nothing. *)
Theorem Handle_login_twice first second player player' session session' server :
  players server !! Username first = None →
  Username second = Username first →
  ∃ registered server1,
    builtFrom first session registered ∧
    players server1 = <[Username first := registered]> (players server) ∧
    Handle (Login first) player session server =
    (true, server1,
     [Constructed registered;
      SendPacket (PlayStatusPacket 0) session;
      SendPacket ResourcePackInfoPacket session;
      AddedPlayer registered session]) ∧
    GetPlayerByName server1 (Username first) = (Some registered, None) ∧
    Handle (Login second) player' session' server1 = (false, server1, []).
Proof.
  intros Hfree Hsame.
  destruct (Handle_new_name first player session server Hfree)
    as (registered & Hbuilt & Hfirst).
  exists registered, {| players := <[Username first := registered]> (players server) |}.
  do 3 (split; [done|]). split.
  - unfold GetPlayerByName. simpl. by rewrite lookup_insert_eq.
  - unfold Handle, GetPlayerByName. simpl. by rewrite Hsame, lookup_insert_eq.
Qed.

Lemma Handle_login_twice_steve :
  ∃ registered server1,
    builtFrom Examples.loginSteve 1 registered ∧
    players server1
      = <[Username Examples.loginSteve := registered]> (players Examples.emptyServer) ∧
    Handle (Login Examples.loginSteve) None 1 Examples.emptyServer =
    (true, server1,
     [Constructed registered;
      SendPacket (PlayStatusPacket 0) 1;
      SendPacket ResourcePackInfoPacket 1;
      AddedPlayer registered 1]) ∧
    GetPlayerByName server1 (Username Examples.loginSteve) = (Some registered, None) ∧
    Handle (Login Examples.loginSteve) None 2 server1 = (false, server1, []).
Proof.
  apply (Handle_login_twice Examples.loginSteve Examples.loginSteve None None 1 2
           Examples.emptyServer); reflexivity.
Defined.


End login_compose.

(** ** More on movement syncs *)

Section syncs_compose.
Import Players.
Context `{Float32Ops}.
Implicit Types (used : gmap Z IChunk) (order : list (Z * IChunk)).
Implicit Types (trace : list Event) (player : Player).

(** The result of a sync that returns, written out. *)
Lemma SyncMove_unfold order player x y z pitch yaw headYaw g player' trace :
  SyncMove order player x y z pitch yaw headYaw g = Some (player', trace) →
  ∃ h, human player = Some h ∧
    player' =
      with_usedChunks
        (with_motion player
           {| Position := {| X := x; Y := y; Z_ := z |};
              Rot := {| Pitch := fadd32 (Pitch (Rot h)) pitch;
                        Yaw := fadd32 (Yaw (Rot h)) yaw;
                        HeadYaw := fadd32 (HeadYaw (Rot h)) headYaw |} |} g)
        (foldl (cullEntry (playerName player) (chunkCoordinate x) (chunkCoordinate z)
                  (Int32.mul (viewDistance player) (viewDistance player)))
               (usedChunks player, []) order).1 ∧
    trace =
      (foldl (cullEntry (playerName player) (chunkCoordinate x) (chunkCoordinate z)
                (Int32.mul (viewDistance player) (viewDistance player)))
             (usedChunks player, []) order).2.
Proof.
  unfold SyncMove. destruct (human player) as [h|]; [|done]. simpl.
  unfold GetViewDistance. simpl.
  destruct (foldl _ _ order) as [used tr]. intros [= <- <-]. by exists h.
Qed.

(** X8: two syncs in a row leave the player at the second position, with
    the two rotation deltas added one after the other to the rotation it
    had, and with the on-ground flag of the second; name, permissions,
    group, view distance and lifecycle flags are untouched. *)
Theorem SyncMove_twice_motion order1 order2 player
    x1 y1 z1 pitch1 yaw1 headYaw1 g1 x2 y2 z2 pitch2 yaw2 headYaw2 g2
    player1 trace1 player2 trace2 :
  SyncMove order1 player x1 y1 z1 pitch1 yaw1 headYaw1 g1 = Some (player1, trace1) →
  SyncMove order2 player1 x2 y2 z2 pitch2 yaw2 headYaw2 g2 = Some (player2, trace2) →
  ∃ h, human player = Some h ∧
    human player2 =
      Some {| Position := {| X := x2; Y := y2; Z_ := z2 |};
              Rot := {| Pitch := fadd32 (fadd32 (Pitch (Rot h)) pitch1) pitch2;
                        Yaw := fadd32 (fadd32 (Yaw (Rot h)) yaw1) yaw2;
                        HeadYaw := fadd32 (fadd32 (HeadYaw (Rot h)) headYaw1) headYaw2 |} |} ∧
    onGround player2 = g2 ∧
    playerName player2 = playerName player ∧
    displayName player2 = displayName player ∧
    permissions player2 = permissions player ∧
    permissionGroup player2 = permissionGroup player ∧
    viewDistance player2 = viewDistance player ∧
    spawned player2 = spawned player ∧
    finalized player2 = finalized player.
Proof.
  intros Hfirst Hsecond.
  apply SyncMove_unfold in Hfirst as (h & Hh & -> & _).
  apply SyncMove_unfold in Hsecond as (h1 & Hh1 & -> & _).
  simpl in Hh1. injection Hh1 as <-. exists h. by repeat split.
Qed.

(** X9: a sync never adds a tracked chunk, in whatever order the entries
    are visited: what is tracked afterwards was tracked before, under the
    same index. *)
Theorem SyncMove_never_adds order player x y z pitch yaw headYaw g player' trace :
  SyncMove order player x y z pitch yaw headYaw g = Some (player', trace) →
  usedChunks player' ⊆ usedChunks player ∧
  (size (usedChunks player') ≤ size (usedChunks player))%nat ∧
  ∀ index, HasChunkInUse player' index = true → HasChunkInUse player index = true.
Proof.
  intros Hsync. apply SyncMove_unfold in Hsync as (h & _ & -> & _). simpl.
  assert (Hsub : (foldl (cullEntry (playerName player) (chunkCoordinate x)
                           (chunkCoordinate z)
                           (Int32.mul (viewDistance player) (viewDistance player)))
                        (usedChunks player, []) order).1 ⊆ usedChunks player).
  { apply map_subseteq_spec. intros i chunk Hl.
    by apply cull_fold_lookup in Hl as [Hl _]. }
  split; [done | split; [by apply map_subseteq_size|]].
  intros index. unfold HasChunkInUse. rewrite !bool_decide_eq_true. simpl.
  intros [chunk Hl]. exists chunk.
  by eapply lookup_weaken.
Qed.

Lemma cullEvents_near viewer cx cz rs (entry : Z * IChunk) :
  squaredDistance cx cz entry.2 <= rs → cullEvents viewer cx cz rs entry = [].
Proof.
  intros Hnear. unfold cullEvents.
  by destruct (Z.ltb_spec rs (squaredDistance cx cz entry.2)); [lia|].
Qed.

(** X10: after a sync, a further sync whose position lies in the same
    chunk drops nothing and calls nothing. *)
Theorem SyncMove_same_chunk_noop order1 order2 player
    x1 y1 z1 pitch1 yaw1 headYaw1 g1 x2 y2 z2 pitch2 yaw2 headYaw2 g2
    player1 trace1 player2 trace2 :
  order1 ≡ₚ map_to_list (usedChunks player) →
  SyncMove order1 player x1 y1 z1 pitch1 yaw1 headYaw1 g1 = Some (player1, trace1) →
  chunkCoordinate x2 = chunkCoordinate x1 →
  chunkCoordinate z2 = chunkCoordinate z1 →
  order2 ≡ₚ map_to_list (usedChunks player1) →
  SyncMove order2 player1 x2 y2 z2 pitch2 yaw2 headYaw2 g2 = Some (player2, trace2) →
  usedChunks player2 = usedChunks player1 ∧ trace2 = [].
Proof.
  intros Hperm1 Hfirst Hx Hz Hperm2 Hsecond.
  apply SyncMove_Some in Hfirst as (Hused1 & _ & Hvd & _); [|done].
  apply SyncMove_Some in Hsecond as (Hused2 & Htrace2 & _); [|done].
  rewrite Hx, Hz, Hvd in Hused2, Htrace2.
  assert (Hnear : ∀ i chunk, usedChunks player1 !! i = Some chunk →
            squaredDistance (chunkCoordinate x1) (chunkCoordinate z1) chunk
            <= Int32.mul (viewDistance player) (viewDistance player)).
  { intros i chunk. rewrite Hused1, map_lookup_filter_Some. by intros [_ ?]. }
  split.
  - rewrite Hused2. apply map_filter_id. intros i chunk. apply Hnear.
  - rewrite Htrace2. apply join_nil, Forall_fmap, Forall_forall.
    intros [i chunk] Hin. apply cullEvents_near. simpl. apply (Hnear i).
    apply elem_of_map_to_list. by rewrite <-Hperm2.
Qed.

Lemma elem_of_cullEvents event viewer cx cz rs (entry : Z * IChunk) :
  event ∈ cullEvents viewer cx cz rs entry ↔
  rs < squaredDistance cx cz entry.2 ∧
  (event = RemoveViewer entry.2 viewer ∨
   ∃ entity, entity ∈ GetEntities entry.2 ∧ event = DespawnFrom entity viewer).
Proof.
  unfold cullEvents, despawnAll.
  destruct (Z.ltb_spec rs (squaredDistance cx cz entry.2)) as [Hfar | Hnear].
  - rewrite elem_of_cons, list_elem_of_fmap. split.
    + intros [-> | (entity & -> & Hin)]; (split; [done|]); [by left|].
      right. by exists entity.
    + intros [_ [-> | (entity & Hin & ->)]]; [by left|].
      right. by exists entity.
  - split; [by intros ?%elem_of_nil | intros [? _]; lia].
Qed.

(** X11: the calls of a sync are exactly these: for each entry that was
    tracked and is dropped, [RemoveViewer] on its chunk and [DespawnFrom]
    on each entity of the chunk, all for this player. No chunk is sent,
    and nothing is called for a chunk that stays. *)
Theorem SyncMove_calls order player x y z pitch yaw headYaw g player' trace event :
  order ≡ₚ map_to_list (usedChunks player) →
  SyncMove order player x y z pitch yaw headYaw g = Some (player', trace) →
  event ∈ trace ↔
  ∃ index chunk,
    usedChunks player !! index = Some chunk ∧
    usedChunks player' !! index = None ∧
    (event = RemoveViewer chunk (playerName player) ∨
     ∃ entity, entity ∈ GetEntities chunk ∧
               event = DespawnFrom entity (playerName player)).
Proof.
  intros Hperm Hsync.
  apply SyncMove_Some in Hsync as (Hused & Htrace & _); [|done].
  rewrite Htrace, list_elem_of_join. split.
  - intros (events & Hin & (entry & -> & Hentry)%list_elem_of_fmap).
    destruct entry as [index chunk].
    apply elem_of_cullEvents in Hin as [Hfar Hevent]. simpl in *.
    rewrite Hperm in Hentry. apply elem_of_map_to_list in Hentry.
    exists index, chunk. split; [done | split; [|done]].
    rewrite Hused. apply map_lookup_filter_None. right.
    intros chunk' Hl. simpl. replace chunk' with chunk by congruence. lia.
  - intros (index & chunk & Hl & Hdropped & Hevent).
    exists (cullEvents (playerName player) (chunkCoordinate x) (chunkCoordinate z)
              (Int32.mul (viewDistance player) (viewDistance player)) (index, chunk)).
    split.
    + apply elem_of_cullEvents. split; [|done]. simpl.
      rewrite Hused in Hdropped.
      apply map_lookup_filter_None in Hdropped as [Hnone | Hfar]; [congruence|].
      specialize (Hfar chunk Hl). simpl in Hfar. lia.
    + apply list_elem_of_fmap_2. rewrite Hperm. by apply elem_of_map_to_list.
Qed.

Lemma unsubscribed_app trace1 trace2 :
  unsubscribed (trace1 ++ trace2) = unsubscribed trace1 ++ unsubscribed trace2.
Proof. apply bind_app. Qed.

Lemma unsubscribed_despawnAll viewer chunk :
  unsubscribed (despawnAll viewer chunk) = [].
Proof.
  unfold despawnAll. induction (GetEntities chunk) as [|entity entities IH]; [done|].
  exact IH.
Qed.

Lemma cull_fold_size viewer cx cz rs order used trace :
  NoDup order.*1 →
  (∀ i chunk, (i, chunk) ∈ order → used !! i = Some chunk) →
  (size used + length (unsubscribed trace) =
   size (foldl (cullEntry viewer cx cz rs) (used, trace) order).1
   + length (unsubscribed (foldl (cullEntry viewer cx cz rs) (used, trace) order).2))%nat.
Proof.
  revert used trace.
  induction order as [|[index c] order IH]; intros used trace Hnodup Hin; [done|].
  apply NoDup_cons in Hnodup as [Hfresh Hnodup]. simpl.
  destruct (Z.ltb_spec rs (squaredDistance cx cz c)) as [Hfar | Hnear].
  - rewrite <-IH; [|done|]; simpl.
    + rewrite unsubscribed_app, length_app.
      change (unsubscribed (RemoveViewer c viewer :: despawnAll viewer c))
        with (c :: unsubscribed (despawnAll viewer c)).
      rewrite unsubscribed_despawnAll. simpl.
      pose proof (Hin index c (list_elem_of_here _ _)) as Hl.
      rewrite map_size_delete, Hl.
      pose proof (map_size_ne_0_lookup_2 used index (mk_is_Some _ _ Hl)). lia.
    + intros i chunk Hi. rewrite lookup_delete_ne.
      * apply Hin. by right.
      * intros ->. apply Hfresh. apply list_elem_of_fmap.
        by exists (i, chunk).
  - apply IH; [done|]. intros i chunk Hi. apply Hin. by right.
Qed.

(** X12: a sync unsubscribes once for each entry it drops: the number of
    [RemoveViewer] calls is the number of entries by which the tracked
    set shrinks. *)
Theorem SyncMove_unsubscribes_once order player x y z pitch yaw headYaw g
    player' trace :
  order ≡ₚ map_to_list (usedChunks player) →
  SyncMove order player x y z pitch yaw headYaw g = Some (player', trace) →
  (size (usedChunks player)
   = size (usedChunks player') + length (unsubscribed trace))%nat.
Proof.
  intros Hperm Hsync.
  apply SyncMove_unfold in Hsync as (h & _ & -> & ->). simpl.
  rewrite <-cull_fold_size; [simpl; lia | |].
  - rewrite Hperm. apply NoDup_fst_map_to_list.
  - intros i chunk Hin. rewrite Hperm in Hin. by apply elem_of_map_to_list.
Qed.

(** X13: sending a chunk makes its index in use and leaves every other
    index as it was; the player then has some chunk in use. *)
Theorem SendChunk_in_use player chunk index index' :
  HasChunkInUse (SendChunk player chunk index).1 index' =
    (bool_decide (index' = index) || HasChunkInUse player index') ∧
  HasAnyChunkInUse (SendChunk player chunk index).1 = true ∧
  (SendChunk player chunk index).2 = [SendFullChunkData chunk (playerName player)].
Proof.
  unfold HasChunkInUse, HasAnyChunkInUse.
  change (usedChunks (SendChunk player chunk index).1)
    with (<[index := chunk]> (usedChunks player)).
  split; [|split; [|done]].
  - destruct (decide (index' = index)) as [-> | Hne].
    + rewrite lookup_insert_eq, (bool_decide_eq_true_2 (index = index)) by done.
      by apply bool_decide_eq_true_2.
    + rewrite lookup_insert_ne by done.
      by rewrite (bool_decide_eq_false_2 (index' = index)).
  - apply bool_decide_eq_true_2.
    pose proof (map_size_ne_0_lookup_2 (<[index := chunk]> (usedChunks player)) index)
      as Hsize.
    rewrite lookup_insert_eq in Hsize.
    specialize (Hsize (mk_is_Some _ _ eq_refl)). lia.
Qed.

(** X14: a chunk that has been sent is still in use after the next sync
    exactly when its squared distance to the synced chunk coordinate is at
    most the view distance squared (where the arithmetic is exact). *)
Theorem SendChunk_then_SyncMove order player chunk index
    x y z pitch yaw headYaw g player' trace :
  order ≡ₚ map_to_list (usedChunks (SendChunk player chunk index).1) →
  SyncMove order (SendChunk player chunk index).1 x y z pitch yaw headYaw g
    = Some (player', trace) →
  noOverflow (GetViewDistance player) (chunkCoordinate x) (chunkCoordinate z) chunk →
  HasChunkInUse player' index =
  bool_decide (exactSquaredDistance (chunkCoordinate x) (chunkCoordinate z) chunk
               <= GetViewDistance player * GetViewDistance player).
Proof.
  unfold GetViewDistance. intros Hperm Hsync Hexact.
  apply SyncMove_Some in Hsync as (Hused & _); [|done].
  change (usedChunks (SendChunk player chunk index).1)
    with (<[index := chunk]> (usedChunks player)) in Hused.
  change (viewDistance (SendChunk player chunk index).1)
    with (viewDistance player) in Hused.
  rewrite (radiusSquared_exact _ _ _ _ Hexact) in Hused.
  unfold HasChunkInUse. apply bool_decide_ext. rewrite Hused. split.
  - intros [tracked Hl]. apply map_lookup_filter_Some in Hl as [Hl Hnear].
    rewrite lookup_insert_eq in Hl. injection Hl as <-. simpl in Hnear.
    by rewrite (squaredDistance_exact _ _ _ _ Hexact) in Hnear.
  - intros Hnear. exists chunk. apply map_lookup_filter_Some.
    split; [apply lookup_insert_eq|]. simpl.
    by rewrite (squaredDistance_exact _ _ _ _ Hexact).
Qed.

Lemma int32_of_Floor_in_range v : Int32.in_range (int32_of_Floor v).
Proof.
  unfold int32_of_Floor.
  destruct (Floor v) as [floor|]; [|apply wrap_is_int32].
  destruct (Int32.in_rangeb floor) eqn:Hb; [|apply wrap_is_int32].
  unfold Int32.in_rangeb in Hb. apply andb_true_iff in Hb as [Hlo Hhi].
  unfold Int32.in_range. lia.
Qed.

(** X15: the chunk coordinate of a finite position that fits [int32] is
    the chunk that holds the block, also west and north of the origin:
    the floored coordinate lies in the sixteen blocks that start at
    sixteen times the chunk coordinate. *)
Theorem chunkCoordinate_holds_block m e :
  Int32.in_range (Z.shiftl m e) →
  16 * chunkCoordinate (F32 m e) <= Z.shiftl m e < 16 * chunkCoordinate (F32 m e) + 16.
Proof.
  intros Hrange. rewrite chunkCoordinate_finite by done.
  rewrite Z.shiftr_div_pow2 by lia. change (2 ^ 4) with 16.
  pose proof (Z.div_mod (Z.shiftl m e) 16 ltac:(lia)).
  pose proof (Z.mod_pos_bound (Z.shiftl m e) 16 ltac:(lia)). lia.
Qed.

(** X16: whatever the position, also one that [int32] cannot hold, an
    infinity or a NaN, the chunk coordinate lies between -2^27 and
    2^27 - 1. *)
Theorem chunkCoordinate_bounds v :
  -134217728 <= chunkCoordinate v <= 134217727.
Proof.
  unfold chunkCoordinate, Int32.shr.
  pose proof (int32_of_Floor_in_range v) as Hrange.
  unfold Int32.in_range, Int32.min_int, Int32.max_int in Hrange.
  rewrite Z.shiftr_div_pow2 by lia. change (2 ^ 4) with 16.
  pose proof (Z.div_mod (int32_of_Floor v) 16 ltac:(lia)).
  pose proof (Z.mod_pos_bound (int32_of_Floor v) 16 ltac:(lia)). lia.
Qed.

(** X17: a teleport moves the player and keeps the rotation, the
    on-ground flag and every tracked chunk, however far it goes; its one
    call is [SendMovePlayer] to the player, with the new position, the
    rotation it was given (which is sent, not stored), the teleport mode
    and the on-ground flag. The chunks out of range of the new position
    are dropped by the next sync there. *)
Theorem Teleport_then_SyncMove order player v rot pitch yaw headYaw g
    player1 sent player2 trace :
  Teleport player v rot = Some (player1, sent) →
  order ≡ₚ map_to_list (usedChunks player) →
  SyncMove order player1 (X v) (Y v) (Z_ v) pitch yaw headYaw g
    = Some (player2, trace) →
  sent = [SendMovePlayer (playerName player) v rot MoveTeleport (onGround player) 0] ∧
  usedChunks player1 = usedChunks player ∧
  Rot <$> human player1 = Rot <$> human player ∧
  Position <$> human player1 = Some v ∧
  onGround player1 = onGround player ∧
  viewDistance player1 = viewDistance player ∧
  usedChunks player2 =
    filter (λ entry, squaredDistance (chunkCoordinate (X v)) (chunkCoordinate (Z_ v))
                       entry.2
                     <= Int32.mul (viewDistance player) (viewDistance player))
           (usedChunks player).
Proof.
  unfold Teleport. destruct (human player) as [h|] eqn:Hh; [|done].
  intros [= <- <-] Hperm Hsync.
  apply SyncMove_Some in Hsync as (Hused & _); [|done].
  by repeat split.
Qed.

End syncs_compose.

(** ** Spawning *)

Section spawning.
Import Players.

(** X18: [SpawnPlayerToAll] calls [SendAddPlayer] for the players of the
    server that have spawned, the player itself excepted, and for no
    other. *)
Theorem SpawnPlayerToAll_calls self online sender subject :
  SendAddPlayer sender subject ∈ SpawnPlayerToAll self online ↔
  sender = self ∧ subject ≠ self ∧
  ∃ player, (subject, player) ∈ online ∧ HasSpawned player = true.
Proof.
  unfold SpawnPlayerToAll. rewrite list_elem_of_join. split.
  - intros (events & Hin & ([address player] & -> & Honline)%list_elem_of_fmap).
    simpl in Hin. case_bool_decide as Hself; [by apply elem_of_nil in Hin|].
    unfold SpawnPlayerTo in Hin. simpl in Hin.
    destruct (HasSpawned player) eqn:Hspawned; simpl in Hin;
      [|by apply elem_of_nil in Hin].
    apply list_elem_of_singleton in Hin. injection Hin as -> ->.
    split; [done | split; [done|]]. by exists player.
  - intros (-> & Hother & player & Honline & Hspawned).
    exists [SendAddPlayer self subject]. split; [by apply list_elem_of_singleton|].
    apply list_elem_of_fmap. exists (subject, player). split; [|done]. simpl.
    rewrite bool_decide_eq_false_2 by done.
    unfold SpawnPlayerTo. simpl. by rewrite Hspawned.
Qed.

End spawning.

(** ** The movement syncs of a concrete player *)

Section syncs_examples.
Import Players Examples.

Lemma watcher2_placed distance : is_Some (human (watcher2 distance)).
Proof. by eexists. Qed.

Lemma order2_entries : order2 = [(1, chunk30); (0, chunk00)].
Proof. vm_compute. reflexivity. Qed.

Lemma SyncMove_twice_motion_watcher2 :
  ∃ player1 trace1 player2 trace2,
    SyncMove (H := amd64_ops) order2 (watcher2 2) zero zero zero zero zero zero true
    = Some (player1, trace1) ∧
    SyncMove (H := amd64_ops) [] player1 farEast zero zero zero zero zero false
    = Some (player2, trace2) ∧
    Position <$> human player2 = Some {| X := farEast; Y := zero; Z_ := zero |} ∧
    onGround player2 = false.
Proof.
  destruct (SyncMove_returns (H := amd64_ops) order2 (watcher2 2)
              zero zero zero zero zero zero true (watcher2_placed 2))
    as [[player1 trace1] Hfirst].
  pose proof (SyncMove_unfold (H := amd64_ops) order2 (watcher2 2)
                zero zero zero zero zero zero true player1 trace1 Hfirst)
    as (h1 & _ & Hplayer1 & _).
  destruct (SyncMove_returns (H := amd64_ops) [] player1
              farEast zero zero zero zero zero false)
    as [[player2 trace2] Hsecond]; [rewrite Hplayer1; by eexists|].
  exists player1, trace1, player2, trace2.
  destruct (SyncMove_twice_motion (H := amd64_ops) order2 [] (watcher2 2)
              zero zero zero zero zero zero true
              farEast zero zero zero zero zero false
              player1 trace1 player2 trace2 Hfirst Hsecond)
    as (h & _ & Hhuman & Hground & _).
  repeat split; [done | done | by rewrite Hhuman | done].
Defined.

Lemma SyncMove_never_adds_watcher2 :
  ∃ player' trace,
    SyncMove (H := amd64_ops) order2 (watcher2 2) zero zero zero zero zero zero true
    = Some (player', trace) ∧
    usedChunks player' ⊆ usedChunks (watcher2 2).
Proof.
  destruct (SyncMove_returns (H := amd64_ops) order2 (watcher2 2)
              zero zero zero zero zero zero true (watcher2_placed 2))
    as [[player' trace] Hsync].
  exists player', trace. split; [done|].
  by destruct (SyncMove_never_adds (H := amd64_ops) order2 (watcher2 2)
                 zero zero zero zero zero zero true player' trace Hsync).
Defined.

Lemma SyncMove_same_chunk_noop_watcher2 :
  ∃ player1 trace1 player2 trace2,
    SyncMove (H := amd64_ops) order2 (watcher2 2) zero zero zero zero zero zero true
    = Some (player1, trace1) ∧
    SyncMove (H := amd64_ops) (map_to_list (usedChunks player1)) player1
      (F32 15 0) zero (F32 1 (-1)) zero zero zero true
    = Some (player2, trace2) ∧
    usedChunks player2 = usedChunks player1 ∧ trace2 = [].
Proof.
  destruct (SyncMove_returns (H := amd64_ops) order2 (watcher2 2)
              zero zero zero zero zero zero true (watcher2_placed 2))
    as [[player1 trace1] Hfirst].
  pose proof (SyncMove_unfold (H := amd64_ops) order2 (watcher2 2)
                zero zero zero zero zero zero true player1 trace1 Hfirst)
    as (h1 & _ & Hplayer1 & _).
  destruct (SyncMove_returns (H := amd64_ops) (map_to_list (usedChunks player1)) player1
              (F32 15 0) zero (F32 1 (-1)) zero zero zero true)
    as [[player2 trace2] Hsecond]; [rewrite Hplayer1; by eexists|].
  exists player1, trace1, player2, trace2.
  split; [done | split; [done|]].
  apply (SyncMove_same_chunk_noop (H := amd64_ops) order2
           (map_to_list (usedChunks player1)) (watcher2 2)
           zero zero zero zero zero zero true
           (F32 15 0) zero (F32 1 (-1)) zero zero zero true
           player1 trace1 player2 trace2);
    [reflexivity | exact Hfirst | reflexivity | reflexivity | reflexivity | exact Hsecond].
Defined.

Lemma SyncMove_calls_watcher2 :
  ∃ player' trace,
    SyncMove (H := amd64_ops) order2 (watcher2 2) zero zero zero zero zero zero true
    = Some (player', trace) ∧
    (RemoveViewer chunk30 "Steve" ∈ trace ↔
     ∃ index chunk,
       usedChunks (watcher2 2) !! index = Some chunk ∧
       usedChunks player' !! index = None ∧
       (RemoveViewer chunk30 "Steve" = RemoveViewer chunk (playerName (watcher2 2)) ∨
        ∃ entity, entity ∈ GetEntities chunk ∧
                  RemoveViewer chunk30 "Steve"
                  = DespawnFrom entity (playerName (watcher2 2)))).
Proof.
  destruct (SyncMove_returns (H := amd64_ops) order2 (watcher2 2)
              zero zero zero zero zero zero true (watcher2_placed 2))
    as [[player' trace] Hsync].
  exists player', trace. split; [done|].
  apply (SyncMove_calls (H := amd64_ops) order2 (watcher2 2)
           zero zero zero zero zero zero true player' trace);
    [reflexivity | exact Hsync].
Defined.

Lemma SyncMove_unsubscribes_once_watcher2 :
  ∃ player' trace,
    SyncMove (H := amd64_ops) order2 (watcher2 2) zero zero zero zero zero zero true
    = Some (player', trace) ∧
    (size (usedChunks (watcher2 2))
     = size (usedChunks player') + length (unsubscribed trace))%nat.
Proof.
  destruct (SyncMove_returns (H := amd64_ops) order2 (watcher2 2)
              zero zero zero zero zero zero true (watcher2_placed 2))
    as [[player' trace] Hsync].
  exists player', trace. split; [done|].
  apply (SyncMove_unsubscribes_once (H := amd64_ops) order2 (watcher2 2)
           zero zero zero zero zero zero true player' trace);
    [reflexivity | exact Hsync].
Defined.

Lemma SyncMove_cull_exact_watcher2 :
  ∃ player' trace,
    SyncMove (H := amd64_ops) order2 (watcher2 2) zero zero zero zero zero zero true
    = Some (player', trace) ∧
    usedChunks player' !! 1 = None ∧
    usedChunks player' !! 0 = Some chunk00.
Proof.
  destruct (SyncMove_returns (H := amd64_ops) order2 (watcher2 2)
              zero zero zero zero zero zero true (watcher2_placed 2))
    as [[player' trace] Hsync].
  exists player', trace. split; [done|].
  destruct (SyncMove_cull_exact (H := amd64_ops) order2 (watcher2 2)
              zero zero zero zero zero zero true player' trace Hsync)
    as [Htracked _]; [reflexivity | |].
  - intros i chunk Hl. apply elem_of_map_to_list in Hl.
    change (map_to_list (usedChunks (watcher2 2))) with order2 in Hl.
    rewrite order2_entries in Hl.
    apply elem_of_cons in Hl as [Hl | Hl%list_elem_of_singleton];
      injection Hl as -> ->; repeat split; vm_compute; discriminate.
  - split.
    + apply eq_None_not_Some. intros [chunk Hl].
      apply Htracked in Hl as [Hl Hnear].
      change (usedChunks (watcher2 2) !! 1) with (Some chunk30) in Hl.
      injection Hl as <-. vm_compute in Hnear. by apply Hnear.
    + apply Htracked. split; [reflexivity|]. vm_compute. discriminate.
Defined.

Lemma SendChunk_then_SyncMove_watcher :
  ∃ player' trace,
    SyncMove (H := amd64_ops) order2 (SendChunk (watcher 2) chunk30 1).1
      zero zero zero zero zero zero true
    = Some (player', trace) ∧
    HasChunkInUse player' 1 = false.
Proof.
  destruct (SyncMove_returns (H := amd64_ops) order2 (SendChunk (watcher 2) chunk30 1).1
              zero zero zero zero zero zero true (watcher2_placed 2))
    as [[player' trace] Hsync].
  exists player', trace. split; [done|].
  rewrite (SendChunk_then_SyncMove (H := amd64_ops) order2 (watcher 2) chunk30 1
             zero zero zero zero zero zero true player' trace);
    [reflexivity | reflexivity | exact Hsync |].
  repeat split; vm_compute; discriminate.
Defined.

Lemma chunkCoordinate_holds_block_minus17 :
  16 * chunkCoordinate (H := amd64_ops) (F32 (-17) 0) <= Z.shiftl (-17) 0
  < 16 * chunkCoordinate (H := amd64_ops) (F32 (-17) 0) + 16.
Proof.
  apply (chunkCoordinate_holds_block (H := amd64_ops) (-17) 0).
  split; vm_compute; discriminate.
Defined.

Lemma Teleport_then_SyncMove_watcher2 :
  ∃ player1 sent player2 trace,
    Teleport (watcher2 2) {| X := farEast; Y := zero; Z_ := zero |} noRotation
    = Some (player1, sent) ∧
    SyncMove (H := amd64_ops) order2 player1 farEast zero zero zero zero zero true
    = Some (player2, trace) ∧
    sent = [SendMovePlayer "Steve" {| X := farEast; Y := zero; Z_ := zero |}
              noRotation MoveTeleport false 0] ∧
    usedChunks player1 = usedChunks (watcher2 2).
Proof.
  destruct (Teleport (watcher2 2) {| X := farEast; Y := zero; Z_ := zero |} noRotation)
    as [[player1 sent]|] eqn:Hteleport; [|discriminate Hteleport].
  assert (Hplaced : is_Some (human player1)).
  { injection Hteleport as <- _. by eexists. }
  destruct (SyncMove_returns (H := amd64_ops) order2 player1
              farEast zero zero zero zero zero true Hplaced)
    as [[player2 trace] Hsync].
  exists player1, sent, player2, trace. split; [done | split; [done|]].
  destruct (Teleport_then_SyncMove (H := amd64_ops) order2 (watcher2 2)
              {| X := farEast; Y := zero; Z_ := zero |} noRotation
              zero zero zero true player1 sent player2 trace Hteleport)
    as (Hsent & Hsame & _); [reflexivity | exact Hsync |].
  split; [exact Hsent | exact Hsame].
Defined.

End syncs_examples.
